(** * Mooncake store: the randomized allocation strategy

    A shallow embedding of [mooncake-store/include/allocation_strategy.h]
    ([RandomAllocationStrategy::Allocate]) and the properties of it that the
    design document states.

    The buffer allocators ([allocator.h]) and the random engine with its
    [std::uniform_int_distribution] are not part of that header: they are
    interfaces here ([BufferAllocator], [UniformRandomSource]), and every
    theorem holds for all their implementations. *)

From stdpp Require Import base numbers list sets strings.

Open Scope N_scope.

(** ** [size_t] arithmetic

    [size_t] values are naturals [N]; the two places where the code computes
    on them without a guard wrap around at [2^64] as unsigned arithmetic
    does. *)

Definition SIZE_MAX_plus_1 : N := 2 ^ 64.

(** [a - b] on [size_t], for [a], [b] below [2^64]: it wraps when [a < b]. *)
Definition size_sub (a b : N) : N :=
  if decide (b ≤ a) then a - b else a + SIZE_MAX_plus_1 - b.

(** [a + b] on [size_t], for [a], [b] below [2^64]. *)
Definition size_add (a b : N) : N :=
  if decide (a + b < SIZE_MAX_plus_1) then a + b else a + b - SIZE_MAX_plus_1.

(** ** The interfaces the strategy consumes *)

(** [BufferAllocator] (declared in [allocator.h]).  [Pool] is the identity of
    an allocator object (what a [std::shared_ptr<BufferAllocator>] points
    to), [World] the state of all allocator objects, [Handle] an
    [AllocatedBuffer].  [capacity()] and [size()] read the state;
    [allocate(n)] may change it and returns a handle or [nullptr]. *)
Class BufferAllocator (Pool World Handle : Type) := {
  capacity : Pool → World → N;
  size : Pool → World → N;
  allocate : Pool → N → World → option Handle * World
}.

(** [std::uniform_int_distribution<size_t> dist(a, b); dist(rng)]: a draw
    returns a number and the next state of the engine. *)
Class UniformRandomSource (Rng : Type) := {
  uniform_int_distribution : N → N → Rng → N * Rng
}.

(** What the C++ standard promises of a draw from [dist(a, b)] with
    [a <= b]: the result lies in [[a, b]]. *)
Definition dist_in_range {Rng : Type} {rng_ops : UniformRandomSource Rng}
    : Prop :=
  ∀ (a b : N) (g : Rng),
    a ≤ b → a ≤ (uniform_int_distribution a b g).1 ≤ b.

(** ** Machine state, outcomes and the monad of the embedding *)

Section Strategy.
Context {Pool World Handle Rng : Type}.
Context {pool_ops : BufferAllocator Pool World Handle}.
Context {rng_ops : UniformRandomSource Rng}.

(** A call of a pool operation, as the strategy makes it. *)
Inductive PoolOp :=
  | OpCapacity (p : Pool)
  | OpSize (p : Pool)
  | OpAllocate (p : Pool) (n : N) (r : option Handle).

(** The state one invocation runs in: the pools, the strategy's private
    engine [rng_], and the pool operations called so far, oldest first. *)
Record State := mkState {
  pools : World;
  rng_ : Rng;
  trace : list PoolOp
}.

(** How a computation ends: it returns a value, or it has undefined
    behaviour (the only one the code can reach is an out-of-range
    [eligible[randomIndex]]). *)
Inductive Outcome (A : Type) :=
  | Returns (a : A)
  | Undefined.
Global Arguments Returns {A} a.
Global Arguments Undefined {A}.

Definition M (A : Type) : Type := State → Outcome A * State.

Definition ret {A} (a : A) : M A := λ s, (Returns a, s).

Definition bind {A B} (c : M A) (k : A → M B) : M B :=
  λ s, match c s with
       | (Returns a, s') => k a s'
       | (Undefined, s') => (Undefined, s')
       end.

Notation "'let*' x := c 'in' k" := (bind c (λ x, k))
  (at level 10, x name, c at level 100, k at level 200).

(** [allocator->capacity()] *)
Definition call_capacity (p : Pool) : M N :=
  λ s, (Returns (capacity p (pools s)),
        mkState (pools s) (rng_ s) (trace s ++ [OpCapacity p])).

(** [allocator->size()] *)
Definition call_size (p : Pool) : M N :=
  λ s, (Returns (size p (pools s)),
        mkState (pools s) (rng_ s) (trace s ++ [OpSize p])).

(** [allocator->allocate(objectSize)] *)
Definition call_allocate (p : Pool) (n : N) : M (option Handle) :=
  λ s, let '(r, w) := allocate p n (pools s) in
       (Returns r, mkState w (rng_ s) (trace s ++ [OpAllocate p n r])).

(** [std::uniform_int_distribution<size_t> dist(a, b); dist(rng_)] *)
Definition draw (a b : N) : M N :=
  λ s, let '(i, g) := uniform_int_distribution a b (rng_ s) in
       (Returns i, mkState (pools s) g (trace s)).

(** ** [std::vector] operations on [eligible] *)

(** [v.size()] *)
Definition vsize (v : list Pool) : N := N.of_nat (length v).

(** [v[i]]: undefined behaviour out of range. *)
Definition vector_at (v : list Pool) (i : N) : M Pool :=
  λ s, match v !! N.to_nat i with
       | Some p => (Returns p, s)
       | None => (Undefined, s)
       end.

(** [v[i].swap(v.back())], for [i] in range. *)
Definition swap_with_back (v : list Pool) (i : N) : list Pool :=
  match v !! N.to_nat i, last v with
  | Some x, Some y => <[pred (length v) := x]> (<[N.to_nat i := y]> v)
  | _, _ => v
  end.

(** [v.pop_back()]; the code calls it on a vector that is not empty only. *)
Definition pop_back (v : list Pool) : list Pool := take (pred (length v)) v.

(** ** [RandomAllocationStrategy::Allocate] *)

(** Line 56: [capacity > used ? (capacity - used) : 0]. *)
Definition available_of (capacity used : N) : N :=
  if decide (used < capacity) then capacity - used else 0.

(** Lines 52-61: the loop over [allocators] that fills [eligible]. *)
Fixpoint collect_eligible (kvs : list (string * Pool)) (objectSize : N)
    (eligible : list Pool) : M (list Pool) :=
  match kvs with
  | [] => ret eligible
  | kv :: kvs' =>
      let allocator := kv.2 in
      let* capacity := call_capacity allocator in
      let* used := call_size allocator in
      let available := available_of capacity used in
      collect_eligible kvs' objectSize
        (if decide (objectSize ≤ available) then eligible ++ [allocator]
         else eligible)
  end.

(** What one pass through the body of the retry loop does next. *)
Inductive LoopStep :=
  | Break (r : option Handle)
  | Continue (eligible : list Pool).

(** Lines 73-85: the body of the retry loop. *)
Definition loop_body (objectSize : N) (eligible : list Pool) : M LoopStep :=
  let* randomIndex := draw 0 (size_sub (vsize eligible) 1) in
  let* allocator := vector_at eligible randomIndex in
  let* bufHandle := call_allocate allocator objectSize in
  match bufHandle with
  | Some h => ret (Break (Some h))
  | None =>
      let eligible1 :=
        if decide (size_add randomIndex 1 ≠ vsize eligible)
        then swap_with_back eligible randomIndex
        else eligible in
      ret (Continue (pop_back eligible1))
  end.

(** Lines 72-87: [for (try_count = 0; try_count < max_try; try_count++)],
    by recursion on the number [max_try - try_count] of tries left, and the
    [return nullptr] after the loop. *)
Fixpoint retry_loop (objectSize : N) (tries : nat) (eligible : list Pool)
    : M (option Handle) :=
  match tries with
  | O => ret None
  | S tries' =>
      let* step := loop_body objectSize eligible in
      match step with
      | Break r => ret r
      | Continue eligible' => retry_loop objectSize tries' eligible'
      end
  end.

Definition max_try_limit : N := 10.

(** Lines 40-88.  [allocators] lists the entries of the
    [std::unordered_map] in the order its iteration visits them (an order
    the C++ standard leaves open, so the theorems hold for every order);
    [allocators.size() == 1] is the match on a one-entry list, whose
    [begin()->second] is that entry's pool. *)
Definition Allocate (allocators : list (string * Pool)) (objectSize : N)
    : M (option Handle) :=
  match allocators with
  | [kv] =>
      let allocator := kv.2 in
      call_allocate allocator objectSize
  | _ =>
      let* eligible := collect_eligible allocators objectSize [] in
      match eligible with
      | [] => ret None
      | _ =>
          let max_try := N.min max_try_limit (vsize eligible) in
          retry_loop objectSize (N.to_nat max_try) eligible
      end
  end.

End Strategy.

(** ** A concrete pool set for the scenarios

    The fixture of the design document's scenarios: pools are numbered, each
    has a capacity, a used count, and a flag that makes its [allocate] fail
    as a fragmented pool does; the random engine replays a list of numbers,
    as an injectable generator would. *)

Module Demo.

Record PoolState := mkPool {
  ps_capacity : N;
  ps_used : N;
  ps_fragmented : bool
}.

(** A handle names the pool and the offset of the buffer in it. *)
Definition Handle : Type := nat * N.

Definition demo_capacity (p : nat) (w : list PoolState) : N :=
  default 0 (ps_capacity <$> w !! p).

Definition demo_size (p : nat) (w : list PoolState) : N :=
  default 0 (ps_used <$> w !! p).

Definition demo_allocate (p : nat) (n : N) (w : list PoolState)
    : option Handle * list PoolState :=
  match w !! p with
  | Some st =>
      if ps_fragmented st || bool_decide (ps_capacity st < ps_used st + n)
      then (None, w)
      else (Some (p, ps_used st),
            <[p := mkPool (ps_capacity st) (ps_used st + n) false]> w)
  | None => (None, w)
  end.

Definition demo_allocator : BufferAllocator nat (list PoolState) Handle :=
  {| capacity := demo_capacity; size := demo_size; allocate := demo_allocate |}.

(** Pools configured to refuse every request, whatever their state. *)
Definition refusing_allocator : BufferAllocator nat (list PoolState) Handle :=
  {| capacity := demo_capacity; size := demo_size;
     allocate := λ _ _ w, (None, w) |}.

(** A draw from [dist(a, b)] takes the next number of the list into
    [[a, b]]. *)
Definition replay (a b : N) (g : list N) : N * list N :=
  match g with
  | [] => (a, [])
  | x :: g' => (a + x `mod` (b - a + 1), g')
  end.

Definition demo_rng : UniformRandomSource (list N) :=
  {| uniform_int_distribution := replay |}.

(** Scenario A: P1 has 10 bytes left, P2 has 100. *)
Definition scenario_A_pools : list PoolState :=
  [mkPool 100 90 false; mkPool 100 0 false].
Definition scenario_A_set : list (string * nat) :=
  [("P1"%string, 0%nat); ("P2"%string, 1%nat)].

(** Scenario B: a single full pool. *)
Definition scenario_B_pools : list PoolState := [mkPool 10 10 false].
Definition scenario_B_set : list (string * nat) := [("P1"%string, 0%nat)].

(** Scenario C: 15 pools with room that all refuse. *)
Definition scenario_C_pools : list PoolState :=
  replicate 15 (mkPool 100 0 true).
Definition pool_name (i : nat) : string :=
  String (Ascii.ascii_of_nat (65 + i)) EmptyString.
Definition scenario_C_set : list (string * nat) :=
  (λ i, (pool_name i, i)) <$> seq 0 15.
Definition scenario_C_draws : list N :=
  [7; 3; 100; 2; 5; 6; 8; 99; 12; 13; 14; 15].

(** Two pools, neither with room for 50 bytes. *)
Definition crowded_pools : list PoolState :=
  [mkPool 10 10 false; mkPool 100 90 false].

(** One refusing pool mounted under two names. *)
Definition shared_pools : list PoolState := [mkPool 100 0 true].
Definition shared_set : list (string * nat) :=
  [("P1"%string, 0%nat); ("P1b"%string, 0%nat)].

(** Scenario D: three pools with room; only pool 1 can carve a buffer. *)
Definition scenario_D_pools : list PoolState :=
  [mkPool 100 0 true; mkPool 100 0 false; mkPool 100 0 true].
Definition scenario_D_set : list (string * nat) :=
  [("P1"%string, 0%nat); ("P2"%string, 1%nat); ("P3"%string, 2%nat)].

End Demo.

(** ** Vocabulary of the properties *)

Section Vocabulary.
Context {Pool World Handle Rng : Type}.
Context {pool_ops : BufferAllocator Pool World Handle}.
Context {rng_ops : UniformRandomSource Rng}.

(** The clamped available space a pool reports in a given state. *)
Definition available (p : Pool) (w : World) : N :=
  available_of (capacity p w) (size p w).

(** The eligible pools of a pool set for a request, in iteration order. *)
Definition eligible_pools (allocators : list (string * Pool))
    (objectSize : N) (w : World) : list Pool :=
  filter (λ p, objectSize ≤ available p w) allocators.*2.

(** The occupancy queries the filter makes over a pool set. *)
Fixpoint occupancy_queries (kvs : list (string * Pool))
    : list (@PoolOp Pool Handle) :=
  match kvs with
  | [] => []
  | kv :: kvs' => OpCapacity kv.2 :: OpSize kv.2 :: occupancy_queries kvs'
  end.

(** The [allocate] calls of a trace: the pool called and what it returned. *)
Definition allocate_call (op : @PoolOp Pool Handle)
    : option (Pool * option Handle) :=
  match op with
  | OpAllocate p _ r => Some (p, r)
  | _ => None
  end.

Definition allocate_calls (t : list (@PoolOp Pool Handle))
    : list (Pool * option Handle) :=
  omap allocate_call t.

(** The pools whose [allocate] a trace calls, in call order. *)
Definition attempted (t : list (@PoolOp Pool Handle)) : list Pool :=
  (allocate_calls t).*1.

(** One invocation of [Allocate] on a fresh trace. *)
Definition invoke (allocators : list (string * Pool)) (objectSize : N)
    (w : World) (g : Rng) : Outcome (option Handle) * State :=
  Allocate allocators objectSize (mkState w g []).

(** The retry loop, started with [tries] tries left on [eligible] in state
    [s], comes to the head of the loop with [tries'] tries left on
    [eligible'] in state [s']. *)
Inductive loop_reaches (objectSize : N)
    : nat → list Pool → State → nat → list Pool → State → Prop :=
  | loop_reaches_here tries eligible s :
      loop_reaches objectSize tries eligible s tries eligible s
  | loop_reaches_next tries eligible s eligible1 s1 tries' eligible' s' :
      loop_body objectSize eligible s = (Returns (Continue eligible1), s1) →
      loop_reaches objectSize tries eligible1 s1 tries' eligible' s' →
      loop_reaches objectSize (S tries) eligible s tries' eligible' s'.

(** The [allocate] event of a call at size [n]. *)
Definition op_of (n : N) (c : Pool * option Handle) : @PoolOp Pool Handle :=
  OpAllocate c.1 n c.2.

(** Every call of the list returned [nullptr]. *)
Definition all_failed (cs : list (Pool * option Handle)) : Prop :=
  Forall (λ c, c.2 = None) cs.

(** Every result of the list is what the pool's [allocate] returned in some
    state of the pools. *)
Definition genuine (n : N) (cs : list (Pool * option Handle)) : Prop :=
  Forall (λ c, ∃ w : World, c.2 = (allocate c.1 n w).1) cs.

(** How the outcome of a run relates to the [allocate] calls [cs] it made
    with a budget of [budget] tries. *)
Definition verdict (out : Outcome (option Handle)) (budget : nat)
    (cs : list (Pool * option Handle)) : Prop :=
  match out with
  | Returns (Some h) => ∃ cs0 p, cs = cs0 ++ [(p, Some h)] ∧ all_failed cs0
  | Returns None => all_failed cs ∧ length cs = budget
  | Undefined => all_failed cs
  end.

(** The account of a run: at most [budget] calls, each on a slot of its own
    of [el], with genuine results, and the outcome they explain. *)
Definition account (n : N) (el : list Pool) (budget : nat)
    (out : Outcome (option Handle)) (cs : list (Pool * option Handle)) : Prop :=
  (length cs ≤ budget)%nat ∧ cs.*1 ⊆+ el ∧ genuine n cs ∧ verdict out budget cs.

(** [max_try] of an invocation, as a number of loop iterations. *)
Definition budget (allocators : list (string * Pool)) (n : N) (w : World)
    : nat :=
  N.to_nat (N.min max_try_limit (vsize (eligible_pools allocators n w))).

End Vocabulary.

(** ** Replaying an invocation

    What the pools and the engine become when the calls of an invocation
    are made again, one after the other, from the state it started in. *)

Section Replay.
Context {Pool World Handle Rng : Type}.
Context {pool_ops : BufferAllocator Pool World Handle}.
Context {rng_ops : UniformRandomSource Rng}.

(** The pools after [allocate(n)] was called on each pool of [ps] in turn. *)
Fixpoint pools_after (n : N) (ps : list Pool) (w : World) : World :=
  match ps with
  | [] => w
  | p :: ps' => pools_after n ps' (allocate p n w).2
  end.

(** What these calls return, in turn. *)
Fixpoint results_of (n : N) (ps : list Pool) (w : World)
    : list (option Handle) :=
  match ps with
  | [] => []
  | p :: ps' => (allocate p n w).1 :: results_of n ps' (allocate p n w).2
  end.

(** The engine after [k] draws, the first over a vector of [len] slots and
    each next one over a vector one slot shorter. *)
Fixpoint engine_after (len k : nat) (g : Rng) : Rng :=
  match k with
  | O => g
  | S k' =>
      engine_after (pred len) k'
        (uniform_int_distribution 0 (size_sub (N.of_nat len) 1) g).2
  end.

End Replay.

(** Pools of which only pool [q] ever hands out a buffer, and always does. *)
Module Fixtures.

Definition only_pool (q : nat)
    : BufferAllocator nat (list Demo.PoolState) Demo.Handle :=
  {| capacity := Demo.demo_capacity; size := Demo.demo_size;
     allocate := λ p _ w,
       if decide (p = q) then (Some (p, 0), w) else (None, w) |}.

(** Eleven pools with room. *)
Definition eleven_pools : list Demo.PoolState :=
  replicate 11 (Demo.mkPool 100 0 false).
Definition eleven_set : list (string * nat) :=
  (λ i, (Demo.pool_name i, i)) <$> seq 0 11.

(** A pool that reports more bytes in use than it has. *)
Definition overdrawn_pools : list Demo.PoolState :=
  [Demo.mkPool 10 30 false; Demo.mkPool 100 0 false].

End Fixtures.

(** ** The vector operations *)

Section Vector.
Context {Pool : Type}.
Implicit Types (v : list Pool) (i : N).

Lemma pop_back_snoc v x : pop_back (v ++ [x]) = v.
Proof.
  unfold pop_back. rewrite length_app. simpl.
  replace (pred (length v + 1)) with (length v) by lia.
  by rewrite take_app_length.
Qed.

Lemma pop_back_length v : length (pop_back v) = pred (length v).
Proof. unfold pop_back. rewrite length_take. lia. Qed.

(** Swapping a slot with itself changes nothing. *)
Lemma swap_with_back_last v i :
  N.to_nat i = pred (length v) → swap_with_back v i = v.
Proof.
  intros Hi. unfold swap_with_back.
  destruct (v !! N.to_nat i) as [x|] eqn:Hx; [|done].
  destruct (last v) as [y|] eqn:Hy; [|done].
  rewrite last_lookup, <- Hi, Hx in Hy. injection Hy as <-.
  rewrite (list_insert_id v (N.to_nat i) x) by done.
  rewrite <- Hi. by apply list_insert_id.
Qed.

(** Swap-with-last-and-pop removes the element at the index, up to the
    order of the others. *)
Lemma pop_back_swap_with_back v i x :
  v !! N.to_nat i = Some x →
  pop_back (swap_with_back v i) ≡ₚ delete (N.to_nat i) v.
Proof.
  intros Hx.
  destruct (decide (N.to_nat i = pred (length v))) as [Hlast|Hne].
  - rewrite swap_with_back_last by done.
    unfold pop_back. rewrite Hlast.
    destruct v as [|a v] using rev_ind; [done|].
    rewrite length_app. simpl.
    replace (pred (length v + 1)) with (length v) by lia.
    rewrite take_app_length.
    by rewrite (delete_middle v []), app_nil_r.
  - assert (Hlt : (N.to_nat i < length v)%nat) by by eapply lookup_lt_Some.
    destruct v as [|y v _] using rev_ind; [done|].
    rewrite length_app in Hne, Hlt. simpl in *.
    assert (Hi : (N.to_nat i < length v)%nat) by lia.
    rewrite lookup_app_l in Hx by done.
    unfold swap_with_back.
    rewrite lookup_app_l, Hx, last_snoc by done.
    rewrite insert_app_l by done.
    rewrite length_app. simpl.
    rewrite insert_app_r_alt by (rewrite length_insert; lia).
    replace (pred (length v + 1) - length (<[N.to_nat i:=y]> v))%nat
      with 0%nat by (rewrite length_insert; lia).
    simpl. rewrite pop_back_snoc.
    rewrite insert_take_drop by done.
    rewrite !delete_take_drop.
    rewrite take_app_le, drop_app_le by lia.
    rewrite <- Permutation_middle, app_assoc.
    by rewrite <- Permutation_cons_append.
Qed.

End Vector.

(** ** [size_t] arithmetic at the two unguarded places *)

Lemma SIZE_MAX_plus_1_pos : 0 < SIZE_MAX_plus_1.
Proof. done. Qed.

(** [eligible.size() - 1] does not wrap on a vector that is not empty. *)
Lemma size_sub_1_exact (a : N) : 1 ≤ a → size_sub a 1 + 1 = a.
Proof. intros Ha. unfold size_sub. case_decide; lia. Qed.

(** On the empty vector it would wrap to [SIZE_MAX]. *)
Lemma size_sub_1_wraps : size_sub 0 1 = SIZE_MAX_plus_1 - 1.
Proof. done. Qed.

(** [randomIndex + 1 == eligible.size()] holds of an index in range only
    when it is the last. *)
Lemma size_add_1_last (i len : N) : i < len → size_add i 1 = len → i + 1 = len.
Proof.
  intros Hi. unfold size_add. pose proof SIZE_MAX_plus_1_pos.
  case_decide; lia.
Qed.

(** ** The steps of [Allocate] *)

Section Steps.
Context {Pool World Handle Rng : Type}.
Context {pool_ops : BufferAllocator Pool World Handle}.
Context {rng_ops : UniformRandomSource Rng}.
Implicit Types (s : @State Pool World Handle Rng) (el : list Pool).
Implicit Types (cs : list (Pool * option Handle)).

Lemma allocate_calls_app (t1 t2 : list (@PoolOp Pool Handle)) :
  allocate_calls (t1 ++ t2) = allocate_calls t1 ++ allocate_calls t2.
Proof. apply omap_app. Qed.

Lemma allocate_calls_queries (kvs : list (string * Pool)) :
  allocate_calls (occupancy_queries (Handle:=Handle) kvs) = [].
Proof. induction kvs as [|kv kvs IH]; [done|]. exact IH. Qed.

Lemma allocate_calls_ops n cs : allocate_calls (op_of n <$> cs) = cs.
Proof.
  induction cs as [|[p r] cs IH]; [done|].
  unfold allocate_calls in *. simpl. by f_equal.
Qed.

(** The filter reads each pool's counters once, changes no state and
    leaves in [eligible] the pools with room, in iteration order. *)
Lemma collect_eligible_spec (kvs : list (string * Pool)) n el s :
  collect_eligible kvs n el s =
    (Returns (el ++ eligible_pools kvs n (pools s)),
     mkState (pools s) (rng_ s) (trace s ++ occupancy_queries kvs)).
Proof.
  revert el s. induction kvs as [|[k p] kvs IH]; intros el s.
  - unfold eligible_pools. simpl. rewrite !app_nil_r. by destruct s.
  - simpl. unfold bind, call_capacity, call_size. simpl.
    rewrite IH. simpl. unfold eligible_pools. simpl.
    rewrite filter_cons. fold (available p (pools s)).
    rewrite <- !app_assoc. simpl.
    by case_decide; rewrite <- ?app_assoc.
Qed.

(** Removing the failed pool: what is left is [eligible] without the slot
    that was drawn, in some order. *)
Lemma failed_pool_removed el (i : N) p :
  el !! N.to_nat i = Some p →
  pop_back (if decide (size_add i 1 ≠ vsize el)
            then swap_with_back el i else el)
  ≡ₚ delete (N.to_nat i) el.
Proof.
  intros Hp. case_decide as Hlast.
  - by eapply pop_back_swap_with_back.
  - assert (Hlt : (N.to_nat i < length el)%nat) by by eapply lookup_lt_Some.
    apply size_add_1_last in Hlast; [|unfold vsize; lia].
    rewrite <- (swap_with_back_last el i) at 1 by (unfold vsize in *; lia).
    by eapply pop_back_swap_with_back.
Qed.

(** One pass through the loop body, case by case. *)
Lemma loop_body_run n el s :
  ∃ i g, uniform_int_distribution 0 (size_sub (vsize el) 1) (rng_ s) = (i, g) ∧
    match el !! N.to_nat i with
    | None => loop_body n el s = (Undefined, mkState (pools s) g (trace s))
    | Some p =>
        ∃ r w el', allocate p n (pools s) = (r, w) ∧
          el' ≡ₚ delete (N.to_nat i) el ∧
          loop_body n el s =
            (Returns (match r with
                      | Some h => Break (Some h)
                      | None => Continue el'
                      end),
             mkState w g (trace s ++ [OpAllocate p n r]))
    end.
Proof.
  destruct (uniform_int_distribution 0 (size_sub (vsize el) 1) (rng_ s))
    as [i g] eqn:Hdraw.
  exists i, g. split; [done|].
  unfold loop_body, bind, draw, vector_at, call_allocate. rewrite Hdraw.
  destruct (el !! N.to_nat i) as [p|] eqn:Hp; [|done]. simpl.
  destruct (allocate p n (pools s)) as [r w] eqn:Ha.
  eexists r, w, _. split; [done|]. split; [by eapply failed_pool_removed|].
  by destruct r.
Qed.

End Steps.

(** ** What a run of the retry loop amounts to *)

Section Loop.
Context {Pool World Handle Rng : Type}.
Context {pool_ops : BufferAllocator Pool World Handle}.
Context {rng_ops : UniformRandomSource Rng}.
Implicit Types (s : @State Pool World Handle Rng) (el : list Pool).
Implicit Types (cs : list (Pool * option Handle)).

Lemma verdict_cons_failed out budget p cs :
  verdict out budget cs → verdict out (S budget) ((p, None) :: cs).
Proof.
  destruct out as [[h|]|]; simpl.
  - intros (cs0 & q & -> & Hcs0). exists ((p, None) :: cs0), q.
    split; [done|]. by constructor.
  - intros [Hall <-]. split; [by constructor|done].
  - intros Hall. by constructor.
Qed.

Lemma retry_loop_spec n tries : ∀ el s out s',
  retry_loop n tries el s = (out, s') →
  ∃ cs, trace s' = trace s ++ (op_of n <$> cs) ∧ account n el tries out cs.
Proof.
  unfold account.
  induction tries as [|tries IH]; intros el s out s' Hrun.
  - injection Hrun as <- <-. exists []. simpl. rewrite app_nil_r.
    split_and!; try done; try constructor. apply submseteq_nil_l.
  - simpl in Hrun. unfold bind in Hrun.
    destruct (loop_body_run n el s) as (i & g & Hdraw & Hbody).
    destruct (el !! N.to_nat i) as [p|] eqn:Hp.
    + destruct Hbody as (r & w & el' & Ha & Hel' & Hbody).
      rewrite Hbody in Hrun. destruct r as [h|].
      * injection Hrun as <- <-. exists [(p, Some h)]. simpl.
        split_and!; [done|lia| | |].
        -- apply singleton_submseteq_l. by eapply list_elem_of_lookup_2.
        -- constructor; [|constructor]. exists (pools s). simpl. by rewrite Ha.
        -- exists [], p. split; [done|]. constructor.
      * apply IH in Hrun as (cs & Htr & Hlen & Hsub & Hgen & Hver).
        exists ((p, None) :: cs). simpl in *.
        split_and!; [|lia| | |].
        -- rewrite Htr. by rewrite <- app_assoc.
        -- rewrite (delete_Permutation el (N.to_nat i) p) by done.
           apply submseteq_skip. by rewrite <- Hel'.
        -- constructor; [|done]. exists (pools s). simpl. by rewrite Ha.
        -- by apply verdict_cons_failed.
    + rewrite Hbody in Hrun. injection Hrun as <- <-.
      exists []. simpl. rewrite app_nil_r.
      split_and!; try done; try constructor; try lia. apply submseteq_nil_l.
Qed.

(** With a draw that honours its range, an index drawn over a vector that
    is not empty is a slot of it. *)
Lemma drawn_index_in_range el (g g' : Rng) (i : N) :
  dist_in_range → (1 ≤ length el)%nat →
  uniform_int_distribution 0 (size_sub (vsize el) 1) g = (i, g') →
  (N.to_nat i < length el)%nat.
Proof.
  intros Hdist Hne Hdraw.
  pose proof (Hdist 0 (size_sub (vsize el) 1) g) as Hi.
  rewrite Hdraw in Hi. simpl in Hi.
  pose proof (size_sub_1_exact (vsize el)). unfold vsize in *. lia.
Qed.

(** With such draws and no more tries than slots, the loop never indexes
    out of range. *)
Lemma retry_loop_defined n tries : ∀ el s,
  dist_in_range → (tries ≤ length el)%nat →
  (retry_loop n tries el s).1 ≠ Undefined.
Proof.
  induction tries as [|tries IH]; intros el s Hdist Hle; [done|].
  simpl. unfold bind.
  destruct (loop_body_run n el s) as (i & g & Hdraw & Hbody).
  apply drawn_index_in_range in Hdraw as Hi; [|done|lia].
  apply lookup_lt_is_Some_2 in Hi as [p Hp]. rewrite Hp in Hbody.
  destruct Hbody as (r & w & el' & Ha & Hel' & ->).
  destruct r as [h|]; [done|].
  apply IH; [done|]. rewrite Hel', length_delete by done. lia.
Qed.

End Loop.

(** ** What one invocation of [Allocate] amounts to *)

Section Invocation.
Context {Pool World Handle Rng : Type}.
Context {pool_ops : BufferAllocator Pool World Handle}.
Context {rng_ops : UniformRandomSource Rng}.
Implicit Types (s : @State Pool World Handle Rng) (el : list Pool).
Implicit Types (cs : list (Pool * option Handle)).
Implicit Types (allocators : list (string * Pool)) (n : N).

(** The fast path: one [allocate] call and nothing else. *)
Lemma Allocate_single (name : string) (p : Pool) n s :
  Allocate [(name, p)] n s =
    (Returns (allocate p n (pools s)).1,
     mkState (allocate p n (pools s)).2 (rng_ s)
       (trace s ++ [OpAllocate p n (allocate p n (pools s)).1])).
Proof.
  unfold Allocate, call_allocate. simpl.
  by destruct (allocate p n (pools s)).
Qed.

(** Off the fast path: the filter, then the retry loop over what it kept. *)
Lemma Allocate_many allocators n s :
  length allocators ≠ 1%nat →
  Allocate allocators n s =
    let el := eligible_pools allocators n (pools s) in
    let s1 := mkState (pools s) (rng_ s)
                (trace s ++ occupancy_queries allocators) in
    match el with
    | [] => (Returns None, s1)
    | _ => retry_loop n (budget allocators n (pools s)) el s1
    end.
Proof.
  intros Hlen. unfold budget.
  assert (Allocate allocators n s =
    bind (collect_eligible allocators n [])
      (λ eligible,
         match eligible with
         | [] => ret None
         | _ => retry_loop n
                  (N.to_nat (N.min max_try_limit (vsize eligible))) eligible
         end) s) as ->.
  { by destruct allocators as [|kv [|kv' kvs]]. }
  unfold bind. rewrite collect_eligible_spec. simpl.
  by destruct (eligible_pools allocators n (pools s)).
Qed.

Lemma Allocate_spec allocators n s out s' :
  length allocators ≠ 1%nat →
  Allocate allocators n s = (out, s') →
  ∃ cs,
    trace s' = trace s ++ occupancy_queries allocators ++ (op_of n <$> cs) ∧
    account n (eligible_pools allocators n (pools s))
      (budget allocators n (pools s)) out cs.
Proof.
  intros Hlen. rewrite Allocate_many by done. simpl.
  destruct (eligible_pools allocators n (pools s)) as [|p el] eqn:Hel.
  - intros [= <- <-]. exists []. simpl. rewrite app_nil_r. split; [done|].
    unfold account, budget. rewrite Hel. simpl.
    split_and!; try done; constructor.
  - intros Hrun. apply retry_loop_spec in Hrun as (cs & Htr & Hacc).
    exists cs. simpl in Htr. by rewrite Htr, <- app_assoc.
Qed.

(** The [allocate] calls of any invocation and the outcome they explain. *)
Lemma Allocate_calls allocators n s out s' :
  Allocate allocators n s = (out, s') →
  ∃ cs b,
    allocate_calls (trace s') = allocate_calls (trace s) ++ cs ∧
    genuine n cs ∧ verdict out b cs.
Proof.
  destruct (decide (length allocators = 1%nat)) as [Hone|Hmany].
  - destruct allocators as [|[name p] [|kv kvs]]; try done.
    rewrite Allocate_single. intros [= <- <-]. simpl.
    exists [(p, (allocate p n (pools s)).1)], 1%nat.
    rewrite allocate_calls_app. split_and!; [done| |].
    + constructor; [|constructor]. by exists (pools s).
    + destruct (allocate p n (pools s)).1 as [h|] eqn:Hr; simpl.
      * exists [], p. split; [done|constructor].
      * split; [|done]. by repeat constructor.
  - intros Hrun. apply Allocate_spec in Hrun as (cs & Htr & _ & _ & Hgen & Hver);
      [|done].
    exists cs, (budget allocators n (pools s)). rewrite Htr.
    by rewrite !allocate_calls_app, allocate_calls_queries, allocate_calls_ops.
Qed.

(** With draws that honour their range the invocation returns. *)
Lemma Allocate_defined allocators n s :
  dist_in_range → (Allocate allocators n s).1 ≠ Undefined.
Proof.
  intros Hdist.
  destruct (decide (length allocators = 1%nat)) as [Hone|Hmany].
  - destruct allocators as [|[name p] [|kv kvs]]; try done.
    by rewrite Allocate_single.
  - rewrite Allocate_many by done. simpl. unfold budget.
    destruct (eligible_pools allocators n (pools s)) as [|p el]; [done|].
    apply retry_loop_defined; [done|]. unfold vsize. lia.
Qed.

(** A result reported by a failing pool is no handle. *)
Lemma genuine_all_failed n cs el :
  (∀ p (w : World), p ∈ el → (allocate p n w).1 = None) →
  cs.*1 ⊆+ el → genuine n cs → all_failed cs.
Proof.
  intros Hfail Hsub Hgen. unfold genuine, all_failed in *.
  rewrite Forall_forall in *. intros [p r] Hc.
  destruct (Hgen _ Hc) as [w ->]. simpl. apply Hfail.
  eapply elem_of_submseteq; [|done].
  by apply (list_elem_of_fmap_2 fst) in Hc.
Qed.

(** The states the loop reaches keep at least as many slots as tries. *)
Lemma loop_reaches_slots n tries el s tries' el' s' :
  loop_reaches n tries el s tries' el' s' →
  (tries ≤ length el)%nat → (tries' ≤ length el')%nat.
Proof.
  induction 1 as [|tries el s el1 s1 tries' el' s' Hbody _ IH]; [done|].
  intros Hle. apply IH.
  destruct (loop_body_run n el s) as (i & g & _ & Hrun).
  destruct (el !! N.to_nat i) as [p|] eqn:Hp; [|by rewrite Hrun in Hbody].
  destruct Hrun as (r & w & el2 & _ & Hel2 & Hrun).
  rewrite Hrun in Hbody. destruct r as [h|]; [done|].
  injection Hbody as <- <-.
  rewrite Hel2, length_delete by done.
  apply lookup_lt_Some in Hp. lia.
Qed.

(** The states the loop reaches are states of its run. *)
Lemma loop_reaches_run n tries el s tries' el' s' :
  loop_reaches n tries el s tries' el' s' →
  retry_loop n tries el s = retry_loop n tries' el' s'.
Proof.
  induction 1 as [|tries el s el1 s1 tries' el' s' Hbody _ IH]; [done|].
  simpl. unfold bind. by rewrite Hbody.
Qed.

End Invocation.

(** ** The properties of the design document *)

Section Claims.
Context {Pool World Handle Rng : Type}.
Context {pool_ops : BufferAllocator Pool World Handle}.
Context {rng_ops : UniformRandomSource Rng}.
Implicit Types (s : @State Pool World Handle Rng) (w : World) (g : Rng).
Implicit Types (allocators : list (string * Pool)) (n : N) (p : Pool).

(** C1 (P4, retry bound), amended: on a pool set whose number of pools is
    not one, the number of [allocate] calls of one invocation is at most
    [min(10, number of eligible pools)], a pool being eligible when its
    clamped available space is at least the requested size. *)
Theorem retry_bound allocators n w g :
  length allocators ≠ 1%nat →
  N.of_nat (length (attempted (trace (invoke allocators n w g).2)))
  ≤ N.min 10 (N.of_nat (length (eligible_pools allocators n w))).
Proof.
  intros Hlen. unfold invoke.
  destruct (Allocate allocators n (mkState w g [])) as [out s'] eqn:Hrun.
  apply Allocate_spec in Hrun as (cs & Htr & Hle & _); [|done].
  simpl in *. rewrite Htr. unfold attempted.
  rewrite allocate_calls_app, allocate_calls_queries, allocate_calls_ops.
  simpl. rewrite length_fmap. unfold budget, max_try_limit, vsize in Hle. lia.
Qed.

(** C2 (P2, eligibility correctness), amended: on a pool set whose number
    of pools is not one, a pool whose clamped available space is below the
    requested size is never attempted. *)
Theorem ineligible_never_attempted allocators n w g p :
  length allocators ≠ 1%nat →
  available p w < n →
  p ∉ attempted (trace (invoke allocators n w g).2).
Proof.
  intros Hlen Hp Hin. unfold invoke in Hin.
  destruct (Allocate allocators n (mkState w g [])) as [out s'] eqn:Hrun.
  apply Allocate_spec in Hrun as (cs & Htr & _ & Hsub & _); [|done].
  simpl in *. rewrite Htr in Hin. unfold attempted in Hin.
  rewrite allocate_calls_app, allocate_calls_queries, allocate_calls_ops in Hin.
  simpl in Hin. eapply elem_of_submseteq in Hin; [|done].
  apply list_elem_of_filter in Hin as [Hok _]. lia.
Qed.

(** C3 (P1, single-pool fast path; scenario B): on a pool set of exactly
    one pool, [Allocate] makes one pool call, that pool's [allocate] with
    the requested size, whatever the pool's capacity and usage are (they
    are not read); it returns what that call returns, and leaves the random
    engine as it was.  When that call fails the result is no handle, and
    nothing else was tried. *)
Theorem single_pool_fast_path (name : string) p n s :
  let r := (allocate p n (pools s)).1 in
  Allocate [(name, p)] n s =
    (Returns r,
     mkState (allocate p n (pools s)).2 (rng_ s)
       (trace s ++ [OpAllocate p n r]))
  ∧ (r = None → (Allocate [(name, p)] n s).1 = Returns None).
Proof.
  cbv zeta. rewrite Allocate_single. split; [done|]. simpl. by intros ->.
Qed.

(** C4 (P3, exhaustion on no eligible pool): on a pool set whose number of
    pools is not one, if every pool's clamped available space is below the
    requested size, [Allocate] returns no handle, calls no pool's
    [allocate], and leaves the pools and the random engine as they were. *)
Theorem no_eligible_pool allocators n w g :
  length allocators ≠ 1%nat →
  (∀ p, p ∈ allocators.*2 → available p w < n) →
  (invoke allocators n w g).1 = Returns None
  ∧ attempted (trace (invoke allocators n w g).2) = []
  ∧ pools (invoke allocators n w g).2 = w
  ∧ rng_ (invoke allocators n w g).2 = g.
Proof.
  intros Hlen Hall. unfold invoke. rewrite Allocate_many by done. simpl.
  assert (eligible_pools allocators n w = []) as ->.
  { unfold eligible_pools. revert Hall. generalize (allocators.*2).
    intros l Hall. induction l as [|p l IH]; [done|].
    rewrite filter_cons_False; [apply IH; set_solver|].
    assert (available p w < n) by (apply Hall; set_solver). lia. }
  simpl. unfold attempted. by rewrite allocate_calls_queries.
Qed.

(** C5 (P5, first success wins): in one invocation, an [allocate] call that
    returns a handle is the last [allocate] call, and [Allocate] returns
    that handle. *)
Theorem first_success_wins allocators n w g cs1 p (h : Handle) cs2 :
  allocate_calls (trace (invoke allocators n w g).2)
    = cs1 ++ (p, Some h) :: cs2 →
  cs2 = [] ∧ (invoke allocators n w g).1 = Returns (Some h).
Proof.
  unfold invoke.
  destruct (Allocate allocators n (mkState w g [])) as [out s'] eqn:Hrun.
  apply Allocate_calls in Hrun as (cs & b & Htr & _ & Hver). simpl in *.
  rewrite Htr. intros Hcs.
  assert (Hin : (p, Some h) ∈ cs).
  { rewrite Hcs. apply elem_of_app. right. constructor. }
  assert (Hnot : ¬ all_failed cs).
  { intros Hall. unfold all_failed in Hall. rewrite Forall_forall in Hall.
    by specialize (Hall _ Hin). }
  destruct out as [[h'|]|]; simpl in Hver; [|by destruct Hver|done].
  destruct Hver as (cs0 & q & -> & Hcs0).
  destruct cs2 as [|c cs2 _] using rev_ind.
  - apply app_inj_tail in Hcs as [_ [= _ ->]]. done.
  - rewrite app_comm_cons, app_assoc in Hcs.
    apply app_inj_tail in Hcs as [-> _].
    unfold all_failed in Hcs0. rewrite Forall_forall in Hcs0.
    assert (Hmid : (p, Some h) ∈ cs1 ++ (p, Some h) :: cs2).
    { apply elem_of_app. right. constructor. }
    by specialize (Hcs0 _ Hmid).
Qed.

(** C6 (P6, exhaustion after retries): with draws in the range they are
    asked for, if every [allocate] call of an invocation fails, [Allocate]
    returns no handle. *)
Theorem exhaustion_after_retries allocators n w g :
  dist_in_range →
  all_failed (allocate_calls (trace (invoke allocators n w g).2)) →
  (invoke allocators n w g).1 = Returns None.
Proof.
  intros Hdist. pose proof (Allocate_defined allocators n (mkState w g []) Hdist)
    as Hdef.
  unfold invoke.
  destruct (Allocate allocators n (mkState w g [])) as [out s'] eqn:Hrun.
  apply Allocate_calls in Hrun as (cs & b & Htr & _ & Hver). simpl in *.
  rewrite Htr. intros Hall. destruct out as [[h|]|]; [|done|done].
  destruct Hver as (cs0 & q & -> & _).
  unfold all_failed in Hall. rewrite Forall_app, Forall_singleton in Hall.
  by destruct Hall as [_ ?].
Qed.

(** C7 (scenario C, removal of a failed pool): in one invocation on a pool
    set of more than one pool, every [allocate] call is on a slot of its own
    of the eligible set, so a pool that the set holds once (distinct names
    hold distinct pools) is never called twice; and when every pool
    refuses, with draws in the range they are asked for, exactly
    [min(10, number of eligible pools)] pools are attempted: 10 of 15. *)
Theorem attempts_distinct allocators n w g :
  (1 < length allocators)%nat →
  let t := trace (invoke allocators n w g).2 in
  attempted t ⊆+ eligible_pools allocators n w
  ∧ (NoDup allocators.*2 → NoDup (attempted t))
  ∧ (dist_in_range →
     (∀ p w', p ∈ allocators.*2 → (allocate p n w').1 = None) →
     N.of_nat (length (attempted t))
       = N.min 10 (N.of_nat (length (eligible_pools allocators n w)))
     ∧ (length (eligible_pools allocators n w) = 15%nat →
        length (attempted t) = 10%nat)).
Proof.
  intros Hlen. cbv zeta.
  pose proof (Allocate_defined allocators n (mkState w g [])) as Hdef.
  unfold invoke.
  destruct (Allocate allocators n (mkState w g [])) as [out s'] eqn:Hrun.
  apply Allocate_spec in Hrun as (cs & Htr & Hle & Hsub & Hgen & Hver); [|lia].
  simpl in *. rewrite Htr. unfold attempted.
  rewrite allocate_calls_app, allocate_calls_queries, allocate_calls_ops.
  simpl. split_and!; [done| |].
  - intros Hnodup.
    apply submseteq_Permutation in Hsub as [k Hk].
    assert (Hel : NoDup (eligible_pools allocators n w)).
    { unfold eligible_pools. by apply NoDup_filter. }
    rewrite Hk in Hel. by apply NoDup_app in Hel as [? _].
  - intros Hdist Hfail. specialize (Hdef Hdist).
    assert (Hall : all_failed cs).
    { eapply genuine_all_failed; [|done..].
      intros p w' Hp. apply Hfail.
      unfold eligible_pools in Hp. by apply list_elem_of_filter in Hp as [_ ?]. }
    assert (Hcount : length cs = budget allocators n w).
    { destruct out as [[h|]|]; simpl in Hver; [|by destruct Hver|done].
      destruct Hver as (cs0 & q & -> & _).
      unfold all_failed in Hall.
      rewrite Forall_app, Forall_singleton in Hall. by destruct Hall. }
    rewrite length_fmap, Hcount. unfold budget, max_try_limit, vsize.
    split; [lia|]. intros ->. by vm_compute.
Qed.

(** C8 (failure channel): with draws in the range they are asked for, an
    invocation on any pool set and any size, zero included, returns: it
    ends in no undefined behaviour.  What it returns is a handle that the
    last [allocate] call of the invocation produced, or no handle with
    every [allocate] call of the invocation having failed. *)
Theorem failure_is_no_handle allocators n w g :
  dist_in_range →
  ∃ r : option Handle,
    (invoke allocators n w g).1 = Returns r ∧
    match r with
    | Some h =>
        ∃ p, last (allocate_calls (trace (invoke allocators n w g).2))
             = Some (p, Some h)
    | None => all_failed (allocate_calls (trace (invoke allocators n w g).2))
    end.
Proof.
  intros Hdist.
  pose proof (Allocate_defined allocators n (mkState w g []) Hdist) as Hdef.
  unfold invoke.
  destruct (Allocate allocators n (mkState w g [])) as [out s'] eqn:Hrun.
  apply Allocate_calls in Hrun as (cs & b & Htr & _ & Hver). simpl in *.
  rewrite Htr. destruct out as [r|]; [|done]. exists r. split; [done|].
  destruct r as [h|]; simpl in Hver.
  - destruct Hver as (cs0 & q & -> & _). exists q. apply last_snoc.
  - by destruct Hver.
Qed.

(** C9 (the draw is within bounds): at every iteration of the retry loop of
    an invocation, [eligible] holds at least as many pools as there are
    tries left, so it is not empty; [eligible.size() - 1] does not wrap;
    and an index drawn in the range asked for is a slot of [eligible]. *)
Theorem draw_within_bounds allocators n s el s1 k el' s' :
  length allocators ≠ 1%nat →
  collect_eligible allocators n [] s = (Returns el, s1) →
  el ≠ [] →
  loop_reaches n (N.to_nat (N.min max_try_limit (vsize el))) el s1
    (S k) el' s' →
  Allocate allocators n s = retry_loop n (S k) el' s'
  ∧ (S k ≤ length el')%nat
  ∧ size_sub (vsize el') 1 + 1 = vsize el'
  ∧ (dist_in_range →
     is_Some (el' !! N.to_nat
       (uniform_int_distribution 0 (size_sub (vsize el') 1) (rng_ s')).1)).
Proof.
  intros Hlen Hcollect Hne Hreach.
  assert (Hslots : (S k ≤ length el')%nat).
  { eapply loop_reaches_slots; [done|]. unfold vsize. lia. }
  split_and!; [|done| |].
  - apply loop_reaches_run in Hreach as <-.
    rewrite Allocate_many by done. simpl.
    rewrite collect_eligible_spec in Hcollect. simpl in Hcollect.
    injection Hcollect as <- <-. unfold budget.
    by destruct (eligible_pools allocators n (pools s)).
  - apply size_sub_1_exact. unfold vsize. lia.
  - intros Hdist. apply lookup_lt_is_Some_2.
    destruct (uniform_int_distribution 0 (size_sub (vsize el') 1) (rng_ s'))
      as [i g'] eqn:Hdraw.
    eapply drawn_index_in_range; [done| |done]. lia.
Qed.

(** C10 (empty pool set): on the empty pool set [Allocate] returns no
    handle for every size, calls no pool operation and changes no state:
    the fast path is not taken, and the filter leaves [eligible] empty. *)
Theorem empty_pool_set n s :
  Allocate [] n s = (Returns None, s)
  ∧ collect_eligible [] n [] s = (Returns [], s).
Proof. split; reflexivity. Qed.

End Claims.

(** ** The scenarios of the design document, and the theorems at work *)

Module Scenarios.
Import Demo.

#[local] Existing Instance demo_allocator.
#[local] Existing Instance demo_rng.

(** The replaying engine honours the range of a draw. *)
Lemma replay_in_range : dist_in_range (rng_ops := demo_rng).
Proof.
  intros a b g Hab. change (a ≤ (replay a b g).1 ≤ b).
  destruct g as [|x g]; simpl; [lia|].
  assert (Hr : x `mod` (b - a + 1) < b - a + 1)
    by (apply N.mod_upper_bound; lia).
  revert Hr. generalize (x `mod` (b - a + 1)). lia.
Qed.

(** Scenario A: only P2 is eligible; P1 is never attempted, and the result
    is P2's. *)
Example scenario_A :
  invoke scenario_A_set 50 scenario_A_pools [7; 3] =
    (Returns (Some (1%nat, 0)),
     mkState [mkPool 100 90 false; mkPool 100 50 false] [3]
       [OpCapacity 0%nat; OpSize 0%nat; OpCapacity 1%nat; OpSize 1%nat;
        OpAllocate 1%nat 50 (Some (1%nat, 0))]).
Proof. reflexivity. Qed.

(** Scenario B: the single full pool is asked once, and refuses. *)
Example scenario_B :
  invoke scenario_B_set 5 scenario_B_pools [7; 3] =
    (Returns None,
     mkState scenario_B_pools [7; 3] [OpAllocate 0%nat 5 None]).
Proof. reflexivity. Qed.

(** Scenario C: of 15 refusing pools, ten distinct ones are attempted. *)
Example scenario_C :
  (invoke (pool_ops := refusing_allocator)
     scenario_C_set 5 scenario_C_pools scenario_C_draws).1 = Returns None
  ∧ attempted (trace (invoke (pool_ops := refusing_allocator)
       scenario_C_set 5 scenario_C_pools scenario_C_draws).2)
    = [7; 3; 9; 2; 5; 6; 8; 13; 10; 1]%nat.
Proof. split; reflexivity. Qed.

(** Scenario D: the first two pools sampled fail, the third succeeds. *)
Example scenario_D :
  (invoke scenario_D_set 5 scenario_D_pools [0; 0; 0]).1
    = Returns (Some (1%nat, 0))
  ∧ allocate_calls
      (trace (invoke scenario_D_set 5 scenario_D_pools [0; 0; 0]).2)
    = [(0%nat, None); (2%nat, None); (1%nat, Some (1%nat, 0))].
Proof. split; reflexivity. Qed.

(** A pool object mounted under two names holds two slots of [eligible],
    and each slot may be tried: the pools of a set are distinct only when
    its names hold distinct objects. *)
Example shared_pool_two_slots :
  attempted (trace (invoke shared_set 5 shared_pools [0; 0]).2)
    = [0; 0]%nat.
Proof. reflexivity. Qed.

(** On the empty vector the bound of the draw would wrap, and an index
    drawn up to it falls outside: the loop must not be entered then. *)
Example empty_vector_draw :
  (loop_body 5 [] (mkState scenario_A_pools [7] [])).1 = Undefined.
Proof. reflexivity. Qed.

(** *** C1 *)

(** C1 as stated fails on scenario B: the single pool is not eligible, so
    [min(10, 0) = 0], and it is called once. *)
Lemma retry_bound_single_pool_counterexample :
  ¬ (N.of_nat (length (attempted
        (trace (invoke scenario_B_set 5 scenario_B_pools [7; 3]).2)))
     ≤ N.min 10
         (N.of_nat (length (eligible_pools scenario_B_set 5 scenario_B_pools)))).
Proof. apply N.lt_nge. reflexivity. Qed.

Lemma retry_bound_witness :
  N.of_nat (length (attempted
     (trace (invoke scenario_A_set 50 scenario_A_pools [7; 3]).2)))
  ≤ N.min 10
      (N.of_nat (length (eligible_pools scenario_A_set 50 scenario_A_pools))).
Proof.
  apply (retry_bound scenario_A_set 50 scenario_A_pools [7; 3]).
  simpl. lia.
Defined.

(** *** C2 *)

(** C2 as stated fails on scenario B: the single pool has no room for 5
    bytes and is attempted. *)
Lemma ineligible_single_pool_counterexample :
  ¬ (∀ p : nat,
       available p scenario_B_pools < 5 →
       p ∉ attempted
             (trace (invoke scenario_B_set 5 scenario_B_pools [7; 3]).2)).
Proof.
  intros Hclaim. apply (Hclaim 0%nat); [reflexivity|].
  vm_compute. constructor.
Qed.

Lemma ineligible_never_attempted_witness :
  0%nat ∉ attempted
            (trace (invoke scenario_A_set 50 scenario_A_pools [7; 3]).2).
Proof.
  apply (ineligible_never_attempted scenario_A_set 50 scenario_A_pools [7; 3]).
  - simpl. lia.
  - reflexivity.
Defined.

(** *** C4 *)

Lemma no_eligible_pool_witness :
  (invoke scenario_A_set 50 crowded_pools [7; 3]).1 = Returns None
  ∧ attempted (trace (invoke scenario_A_set 50 crowded_pools [7; 3]).2) = []
  ∧ pools (invoke scenario_A_set 50 crowded_pools [7; 3]).2 = crowded_pools
  ∧ rng_ (invoke scenario_A_set 50 crowded_pools [7; 3]).2 = [7; 3].
Proof.
  apply (no_eligible_pool scenario_A_set 50 crowded_pools [7; 3]).
  - simpl. lia.
  - apply Forall_forall. repeat constructor.
Defined.

(** *** C5 *)

Lemma first_success_wins_witness :
  @nil (nat * option Handle) = []
  ∧ (invoke scenario_D_set 5 scenario_D_pools [0; 0; 0]).1
    = Returns (Some (1%nat, 0)).
Proof.
  apply (first_success_wins scenario_D_set 5 scenario_D_pools [0; 0; 0]
           [(0%nat, None); (2%nat, None)] 1%nat (1%nat, 0) []).
  reflexivity.
Defined.

(** *** C6 *)

Lemma exhaustion_after_retries_witness :
  (invoke scenario_C_set 5 scenario_C_pools scenario_C_draws).1 = Returns None.
Proof.
  apply (exhaustion_after_retries scenario_C_set 5 scenario_C_pools
           scenario_C_draws).
  - exact replay_in_range.
  - vm_compute. repeat constructor.
Defined.

(** *** C7 *)

Lemma attempts_distinct_witness :
  NoDup (attempted (trace (invoke (pool_ops := refusing_allocator)
           scenario_C_set 5 scenario_C_pools scenario_C_draws).2))
  ∧ length (attempted (trace (invoke (pool_ops := refusing_allocator)
           scenario_C_set 5 scenario_C_pools scenario_C_draws).2)) = 10%nat.
Proof.
  assert (Hmany : (1 < length scenario_C_set)%nat) by (simpl; lia).
  destruct (attempts_distinct (pool_ops := refusing_allocator)
              scenario_C_set 5 scenario_C_pools scenario_C_draws Hmany)
    as (_ & Hdistinct & Hcount).
  split.
  - apply Hdistinct. apply (bool_decide_unpack _). by vm_compute.
  - apply Hcount; [exact replay_in_range|done|reflexivity].
Defined.

(** *** C8 *)

Lemma failure_is_no_handle_witness :
  ∃ r : option Handle,
    (invoke scenario_A_set 0 scenario_A_pools [7; 3]).1 = Returns r ∧
    match r with
    | Some h =>
        ∃ p, last (allocate_calls
                     (trace (invoke scenario_A_set 0 scenario_A_pools [7; 3]).2))
             = Some (p, Some h)
    | None =>
        all_failed (allocate_calls
                      (trace (invoke scenario_A_set 0 scenario_A_pools [7; 3]).2))
    end.
Proof.
  apply (failure_is_no_handle scenario_A_set 0 scenario_A_pools [7; 3]).
  exact replay_in_range.
Defined.

(** *** C9 *)

(** Scenario D after the first failed try: two tries left on the pools
    [[2; 1]]. *)
Lemma draw_within_bounds_witness :
  is_Some ([2; 1]%nat !! N.to_nat
    (uniform_int_distribution 0 (size_sub (vsize [2; 1]%nat) 1) [0; 0]).1).
Proof.
  pose (s0 := mkState (Pool := nat) (Handle := Handle)
                scenario_D_pools [0; 0; 0] []).
  pose (s1 := (collect_eligible scenario_D_set 5 [] s0).2).
  pose (s2 := (loop_body 5 [0; 1; 2]%nat s1).2).
  assert (Hreach : loop_reaches 5
            (N.to_nat (N.min max_try_limit (vsize [0; 1; 2]%nat)))
            [0; 1; 2]%nat s1 2 [2; 1]%nat s2).
  { eapply loop_reaches_next; [reflexivity|]. apply loop_reaches_here. }
  destruct (draw_within_bounds scenario_D_set 5 s0 [0; 1; 2]%nat s1
              1 [2; 1]%nat s2) as (_ & _ & _ & Hslot);
    [simpl; lia|reflexivity|done|exact Hreach|].
  apply Hslot. exact replay_in_range.
Defined.

End Scenarios.

(** ** Further properties of the code *)

Section Coverage.
Context {Pool World Handle Rng : Type}.
Context {pool_ops : BufferAllocator Pool World Handle}.
Context {rng_ops : UniformRandomSource Rng}.
Implicit Types (s : @State Pool World Handle Rng) (w : World) (g : Rng).
Implicit Types (allocators : list (string * Pool)) (n : N) (p : Pool).
Implicit Types (el : list Pool) (cs : list (Pool * option Handle)).

Lemma pools_after_app n ps1 ps2 w :
  pools_after n (ps1 ++ ps2) w = pools_after n ps2 (pools_after n ps1 w).
Proof. revert w. induction ps1 as [|p ps1 IH]; intros w; [done|]. apply IH. Qed.

(** The loop changes the pools by its [allocate] calls only, logs what they
    returned, and draws once per call as long as the index is in range. *)
Lemma retry_loop_replay n tries : ∀ el s out s' cs,
  retry_loop n tries el s = (out, s') →
  trace s' = trace s ++ (op_of n <$> cs) →
  pools s' = pools_after n cs.*1 (pools s)
  ∧ cs.*2 = results_of n cs.*1 (pools s)
  ∧ (out ≠ Undefined →
     rng_ s' = engine_after (length el) (length cs) (rng_ s)).
Proof.
  induction tries as [|tries IH]; intros el s out s' cs Hrun Htr.
  - injection Hrun as <- <-.
    assert (cs = []) as ->.
    { apply (f_equal length) in Htr.
      rewrite length_app, length_fmap in Htr. destruct cs; [done|simpl in *; lia]. }
    done.
  - simpl in Hrun. unfold bind in Hrun.
    destruct (loop_body_run n el s) as (i & g & Hdraw & Hbody).
    destruct (el !! N.to_nat i) as [p|] eqn:Hp.
    + destruct Hbody as (r & w & el' & Ha & Hel' & Hbody).
      rewrite Hbody in Hrun. destruct r as [h|].
      * injection Hrun as <- <-. simpl in Htr.
        apply app_inv_head in Htr.
        destruct cs as [|[q r] [|c cs]]; try done.
        injection Htr as <- <-. simpl.
        rewrite Ha. simpl. split_and!; [done..|].
        intros _. unfold vsize in Hdraw. by rewrite Hdraw.
      * pose proof Hrun as Hacc.
        apply retry_loop_spec in Hacc as (cs' & Htr' & _).
        simpl in Htr'. rewrite Htr', <- app_assoc in Htr.
        apply app_inv_head in Htr. simpl in Htr.
        destruct cs as [|[q r] cs]; [done|].
        injection Htr as <- <- Hcs.
        assert (cs' = cs) as ->.
        { rewrite <- (allocate_calls_ops n cs'), <- (allocate_calls_ops n cs).
          by rewrite Hcs. }
        destruct (IH _ _ _ _ cs Hrun Htr') as (Hw & Hres & Hg).
        simpl in *. rewrite Ha. simpl.
        split_and!; [done|by f_equal|].
        intros Hdef. rewrite Hg by done.
        unfold vsize in Hdraw. rewrite Hdraw. simpl.
        rewrite Hel', length_delete by done. f_equal. lia.
    + rewrite Hbody in Hrun. injection Hrun as <- <-. simpl in Htr.
      assert (cs = []) as ->.
      { apply (f_equal length) in Htr.
        rewrite length_app, length_fmap in Htr.
        destruct cs; [done|simpl in *; lia]. }
      done.
Qed.

Lemma allocate_not_a_query (kvs : list (string * Pool)) p m
    (r : option Handle) :
  OpAllocate p m r ∉ occupancy_queries kvs.
Proof.
  induction kvs as [|kv kvs IH]; simpl; [by apply not_elem_of_nil|].
  intros Hin. apply elem_of_cons in Hin as [?|Hin]; [done|].
  apply elem_of_cons in Hin as [?|Hin]; [done|]. by apply IH.
Qed.

(** An invocation off the fast path, with all that the lemmas above say
    of it. *)
Lemma invoke_many allocators n w g :
  length allocators ≠ 1%nat →
  ∃ cs,
    trace (invoke allocators n w g).2
      = occupancy_queries allocators ++ (op_of n <$> cs)
    ∧ allocate_calls (trace (invoke allocators n w g).2) = cs
    ∧ account n (eligible_pools allocators n w) (budget allocators n w)
        (invoke allocators n w g).1 cs
    ∧ pools (invoke allocators n w g).2 = pools_after n cs.*1 w
    ∧ cs.*2 = results_of n cs.*1 w
    ∧ ((invoke allocators n w g).1 ≠ Undefined →
       rng_ (invoke allocators n w g).2
         = engine_after (length (eligible_pools allocators n w))
             (length cs) g).
Proof.
  intros Hlen. unfold invoke.
  destruct (Allocate allocators n (mkState w g [])) as [out s'] eqn:Hrun.
  pose proof Hrun as Hspec.
  apply Allocate_spec in Hspec as (cs & Htr & Hacc); [|done].
  simpl in *. exists cs. split; [done|]. split.
  { by rewrite Htr, allocate_calls_app, allocate_calls_queries,
      allocate_calls_ops. }
  split; [done|].
  rewrite Allocate_many in Hrun by done. simpl in Hrun.
  destruct (eligible_pools allocators n w) as [|q el] eqn:Hel.
  - injection Hrun as <- <-. simpl in Htr.
    assert (cs = []) as ->.
    { apply (f_equal length) in Htr.
      rewrite length_app, length_fmap in Htr.
      destruct cs; [done|simpl in *; lia]. }
    done.
  - eapply retry_loop_replay in Hrun; [exact Hrun|].
    simpl. by rewrite Htr.
Qed.

(** X1 (lines 50-61, 72-77): off the fast path the pool operations of an
    invocation are, in this order: [capacity()] then [size()] of every pool
    of the set, eligible or not, once each in iteration order; then
    [allocate] calls only, each with the requested size. *)
Theorem counters_read_once_then_allocate_only allocators n w g :
  length allocators ≠ 1%nat →
  trace (invoke allocators n w g).2
  = occupancy_queries allocators
    ++ (op_of n <$> allocate_calls (trace (invoke allocators n w g).2)).
Proof.
  intros Hlen.
  destruct (invoke_many allocators n w g Hlen) as (cs & Htr & Hcs & _).
  by rewrite Hcs.
Qed.

(** X2 (lines 46-47, 52-59, 76-77): whatever the pool set, an [allocate]
    call of an invocation is on a pool of the set and asks for the requested
    size. *)
Theorem allocate_only_mounted_pools allocators n w g p (m : N)
    (r : option Handle) :
  OpAllocate p m r ∈ trace (invoke allocators n w g).2 →
  p ∈ allocators.*2 ∧ m = n.
Proof.
  destruct (decide (length allocators = 1%nat)) as [Hone|Hmany].
  - destruct allocators as [|[name q] [|kv kvs]]; try done.
    unfold invoke. rewrite Allocate_single. simpl.
    intros Hin. apply list_elem_of_singleton in Hin. injection Hin as -> -> _.
    split; [|done]. constructor.
  - destruct (invoke_many allocators n w g Hmany)
      as (cs & Htr & _ & (_ & Hsub & _) & _).
    rewrite Htr. intros Hin. apply elem_of_app in Hin as [Hin|Hin].
    { by apply allocate_not_a_query in Hin. }
    apply list_elem_of_fmap in Hin as ([q r'] & [= -> -> ->] & Hin).
    split; [|done].
    apply (list_elem_of_fmap_2 fst) in Hin. simpl in Hin.
    eapply elem_of_submseteq in Hin; [|done].
    unfold eligible_pools in Hin. by apply list_elem_of_filter in Hin as [_ ?].
Qed.

(** X3 (lines 47, 77): an invocation changes the pools through its
    [allocate] calls and nothing else: calling [allocate] with the requested
    size on the attempted pools, in order, from the pools the invocation
    started with, gives the pools it ends with and the results it saw. *)
Theorem pools_change_by_attempts_only allocators n w g :
  pools (invoke allocators n w g).2
    = pools_after n (attempted (trace (invoke allocators n w g).2)) w
  ∧ (allocate_calls (trace (invoke allocators n w g).2)).*2
    = results_of n (attempted (trace (invoke allocators n w g).2)) w.
Proof.
  destruct (decide (length allocators = 1%nat)) as [Hone|Hmany].
  - destruct allocators as [|[name q] [|kv kvs]]; try done.
    unfold invoke. by rewrite Allocate_single.
  - destruct (invoke_many allocators n w g Hmany)
      as (cs & _ & Hcs & _ & Hw & Hres & _).
    unfold attempted. by rewrite Hcs.
Qed.

(** X4 (lines 72-75, 85): off the fast path, with draws in the range they
    are asked for, the engine is drawn from once per [allocate] call: the
    first draw is over the slots of the eligible vector, each next one over
    one slot less.  It is not touched when no pool is eligible. *)
Theorem engine_drawn_once_per_attempt allocators n w g :
  dist_in_range →
  length allocators ≠ 1%nat →
  rng_ (invoke allocators n w g).2
  = engine_after (length (eligible_pools allocators n w))
      (length (attempted (trace (invoke allocators n w g).2))) g.
Proof.
  intros Hdist Hmany.
  destruct (invoke_many allocators n w g Hmany)
    as (cs & _ & Hcs & _ & _ & _ & Hg).
  unfold attempted. rewrite Hcs, length_fmap. apply Hg.
  by apply Allocate_defined.
Qed.

(** X5 (lines 58, 69-80): when exactly one pool of a set of several is
    eligible, with draws in the range they are asked for, that pool is
    asked once and [Allocate] returns what it returns, handle or not. *)
Theorem sole_eligible_pool_asked_once allocators n w g p :
  dist_in_range →
  length allocators ≠ 1%nat →
  eligible_pools allocators n w = [p] →
  (invoke allocators n w g).1 = Returns (allocate p n w).1
  ∧ attempted (trace (invoke allocators n w g).2) = [p]
  ∧ pools (invoke allocators n w g).2 = (allocate p n w).2.
Proof.
  intros Hdist Hmany Hel.
  pose proof (Allocate_defined allocators n (mkState w g []) Hdist) as Hdef.
  destruct (invoke_many allocators n w g Hmany)
    as (cs & _ & Hcs & (Hle & Hsub & _ & Hver) & Hw & Hres & _).
  unfold attempted. rewrite Hcs. fold (invoke allocators n w g) in Hdef.
  assert (Hb : budget allocators n w = 1%nat)
    by (unfold budget; rewrite Hel; reflexivity).
  rewrite Hb in *. rewrite Hel in *.
  assert (Hone : ∃ r, cs = [(p, r)]).
  { destruct (invoke allocators n w g).1 as [[h|]|]; simpl in Hver; [| |done].
    - destruct Hver as (cs0 & q & -> & _).
      rewrite length_app in Hle. simpl in Hle.
      destruct cs0; [|simpl in Hle; lia]. simpl in *.
      apply singleton_submseteq in Hsub as ->. by eexists.
    - destruct Hver as [_ Hlen]. destruct cs as [|[q r] [|c cs]]; try done.
      simpl in *. apply singleton_submseteq in Hsub as ->. by eexists. }
  destruct Hone as [r ->]. simpl in *. injection Hres as ->.
  split_and!; [|done..].
  destruct (invoke allocators n w g).1 as [[h|]|]; simpl in Hver; [| |done].
  - destruct Hver as (cs0 & q & Heq & _). destruct cs0 as [|c [|c' cs0]]; [|done..].
    by injection Heq as _ <-.
  - destruct Hver as [Hall _]. unfold all_failed in Hall.
    rewrite Forall_singleton in Hall. simpl in Hall. by rewrite Hall.
Qed.

(** X6 (lines 69-87): off the fast path, when [Allocate] returns no handle
    the try budget was spent in full: every eligible pool was asked when
    there are at most ten of them, and ten of them otherwise. *)
Theorem no_handle_after_full_budget allocators n w g :
  length allocators ≠ 1%nat →
  (invoke allocators n w g).1 = Returns None →
  ((length (eligible_pools allocators n w) ≤ 10)%nat →
   attempted (trace (invoke allocators n w g).2)
     ≡ₚ eligible_pools allocators n w)
  ∧ ((10 ≤ length (eligible_pools allocators n w))%nat →
     length (attempted (trace (invoke allocators n w g).2)) = 10%nat).
Proof.
  intros Hmany Hnone.
  destruct (invoke_many allocators n w g Hmany)
    as (cs & _ & Hcs & (_ & Hsub & _ & Hver) & _).
  unfold attempted. rewrite Hcs. rewrite Hnone in Hver.
  destruct Hver as [_ Hlen]. unfold budget, max_try_limit, vsize in Hlen.
  split; intros Hel.
  - apply submseteq_length_Permutation; [done|]. rewrite length_fmap. lia.
  - rewrite length_fmap. lia.
Qed.

(** X7 (lines 69-87): off the fast path, with draws in the range they are
    asked for and at most ten eligible pools, [Allocate] returns a handle
    whenever some eligible pool never refuses the requested size. *)
Theorem handle_when_a_pool_never_refuses allocators n w g p :
  dist_in_range →
  length allocators ≠ 1%nat →
  (length (eligible_pools allocators n w) ≤ 10)%nat →
  p ∈ eligible_pools allocators n w →
  (∀ w', (allocate p n w').1 ≠ None) →
  ∃ h, (invoke allocators n w g).1 = Returns (Some h).
Proof.
  intros Hdist Hmany Hten Hp Hgood.
  pose proof (Allocate_defined allocators n (mkState w g []) Hdist) as Hdef.
  fold (invoke allocators n w g) in Hdef.
  destruct (invoke_many allocators n w g Hmany)
    as (cs & _ & Hcs & (_ & Hsub & Hgen & Hver) & _).
  destruct (invoke allocators n w g).1 as [[h|]|] eqn:Hout; [by eexists| |done].
  exfalso. destruct Hver as [Hall Hlen].
  unfold budget, max_try_limit, vsize in Hlen.
  assert (Hperm : cs.*1 ≡ₚ eligible_pools allocators n w).
  { apply submseteq_length_Permutation; [done|]. rewrite length_fmap. lia. }
  rewrite <- Hperm in Hp.
  apply list_elem_of_fmap in Hp as ([q r] & -> & Hin). simpl in *.
  unfold genuine, all_failed in *. rewrite Forall_forall in Hgen, Hall.
  destruct (Hgen _ Hin) as [w' Hr]. specialize (Hall _ Hin). simpl in *.
  apply (Hgood w'). by rewrite <- Hr.
Qed.

(** X8 (lines 54-60): the filter keeps a pool exactly when the request is
    empty or fits on top of what the pool reports in use: a pool that
    reports more in use than its capacity is kept for the empty request
    only, and [capacity - used] is never computed when it would wrap. *)
Theorem filter_keeps_pools_with_room allocators n s el s' p :
  collect_eligible allocators n [] s = (Returns el, s') →
  p ∈ el ↔
  p ∈ allocators.*2 ∧ (n = 0 ∨ size p (pools s) + n ≤ capacity p (pools s)).
Proof.
  rewrite collect_eligible_spec. intros [= <- _]. simpl.
  unfold eligible_pools. rewrite list_elem_of_filter.
  unfold available, available_of.
  split.
  - intros [Hroom Hin]. split; [done|]. case_decide; lia.
  - intros [Hin Hroom]. split; [|done]. case_decide; lia.
Qed.

(** X9 (lines 82-85): removing the pool at an index in range shortens
    [eligible] by one slot; the pool that was last takes the freed slot and
    every other remaining slot keeps its pool. *)
Theorem removal_moves_last_into_slot (v : list Pool) (i : N) (j : nat) :
  (N.to_nat i < length v)%nat →
  let v' := pop_back (if decide (size_add i 1 ≠ vsize v)
                      then swap_with_back v i else v) in
  length v' = pred (length v)
  ∧ ((j < length v')%nat →
     v' !! j = if decide (j = N.to_nat i) then last v else v !! j).
Proof.
  intros Hi. cbv zeta.
  destruct (lookup_lt_is_Some_2 v _ Hi) as [x Hx].
  destruct (decide (N.to_nat i = pred (length v))) as [Hlast|Hinner].
  - assert (pop_back (if decide (size_add i 1 ≠ vsize v)
                      then swap_with_back v i else v) = pop_back v) as ->.
    { case_decide; [|done]. by rewrite swap_with_back_last. }
    rewrite pop_back_length. split; [done|]. intros Hj.
    unfold pop_back. rewrite lookup_take_lt by done.
    case_decide; [lia|done].
  - case_decide as Hswap.
    2:{ apply size_add_1_last in Hswap; unfold vsize in *; lia. }
    unfold swap_with_back. rewrite Hx.
    destruct (last v) as [y|] eqn:Hy.
    2:{ apply last_None in Hy. subst v. simpl in Hi. lia. }
    rewrite pop_back_length, !length_insert. split; [done|]. intros Hj.
    unfold pop_back. rewrite !length_insert, lookup_take_lt by done.
    rewrite list_lookup_insert_ne by lia.
    case_decide as Hji.
    + subst j. by rewrite list_lookup_insert_eq.
    + by rewrite list_lookup_insert_ne.
Qed.

(** X10 (lines 64-77): off the fast path, with draws in the range they
    are asked for, [Allocate] gives up without an [allocate] call only when
    no pool is eligible. *)
Theorem eligible_pool_gets_a_try allocators n w g :
  dist_in_range →
  length allocators ≠ 1%nat →
  eligible_pools allocators n w ≠ [] →
  attempted (trace (invoke allocators n w g).2) ≠ [].
Proof.
  intros Hdist Hmany Hel.
  pose proof (Allocate_defined allocators n (mkState w g []) Hdist) as Hdef.
  fold (invoke allocators n w g) in Hdef.
  destruct (invoke_many allocators n w g Hmany)
    as (cs & _ & Hcs & (_ & _ & _ & Hver) & _).
  unfold attempted. rewrite Hcs.
  destruct (invoke allocators n w g).1 as [[h|]|]; simpl in Hver; [| |done].
  - destruct Hver as (cs0 & q & -> & _). rewrite fmap_app.
    intros Hnil. by apply app_nil in Hnil as [_ ?].
  - destruct Hver as [_ Hlen]. unfold budget, max_try_limit, vsize in Hlen.
    destruct (eligible_pools allocators n w); [done|].
    destruct cs; [simpl in Hlen; lia|done].
Qed.

Lemma results_of_app n ps1 ps2 w :
  results_of n (ps1 ++ ps2) w
  = results_of n ps1 w ++ results_of n ps2 (pools_after n ps1 w).
Proof.
  revert w. induction ps1 as [|p ps1 IH]; intros w; [done|].
  simpl. by rewrite IH.
Qed.

(** X11 (lines 47, 77-80): whatever the pool set, a handle that [Allocate]
    returns is the one the last attempted pool handed out, in the state the
    earlier attempts left the pools in, and the pools end as that call left
    them. *)
Theorem returned_handle_is_last_pools allocators n w g (h : Handle) :
  (invoke allocators n w g).1 = Returns (Some h) →
  ∃ ps p,
    attempted (trace (invoke allocators n w g).2) = ps ++ [p]
    ∧ allocate p n (pools_after n ps w)
      = (Some h, pools (invoke allocators n w g).2).
Proof.
  destruct (decide (length allocators = 1%nat)) as [Hone|Hmany].
  - destruct allocators as [|[name q] [|kv kvs]]; try done.
    unfold invoke. rewrite Allocate_single. simpl. intros [= Hh].
    exists [], q. split; [done|]. simpl.
    by destruct (allocate q n w) as [r w']; simpl in *; subst.
  - destruct (invoke_many allocators n w g Hmany)
      as (cs & _ & Hcs & (_ & _ & _ & Hver) & Hw & Hres & _).
    intros Hout. rewrite Hout in Hver. simpl in Hver.
    destruct Hver as (cs0 & q & -> & _).
    unfold attempted. rewrite Hcs, Hw. rewrite !fmap_app in *. simpl in *.
    exists cs0.*1, q. split; [done|].
    rewrite pools_after_app. rewrite results_of_app in Hres. simpl in *.
    apply app_inj_tail in Hres as [_ Hh].
    by destruct (allocate q n (pools_after n cs0.*1 w)) as [r w'];
      simpl in *; subst.
Qed.

End Coverage.

(** ** The further properties at work *)

Module CoverageScenarios.
Import Demo Fixtures.

#[local] Existing Instance demo_allocator.
#[local] Existing Instance demo_rng.

(** The try budget is a cap: with eleven eligible pools, ten refusals use
    it up although the eleventh pool would have served the request. *)
Example cap_can_miss_a_willing_pool :
  (invoke (pool_ops := only_pool 10) eleven_set 5 eleven_pools
     [0; 1; 1; 1; 1; 1; 1; 1; 1; 1]).1 = Returns None
  ∧ attempted (trace (invoke (pool_ops := only_pool 10) eleven_set 5
       eleven_pools [0; 1; 1; 1; 1; 1; 1; 1; 1; 1]).2)
    = [0; 1; 9; 8; 7; 6; 5; 4; 3; 2]%nat.
Proof. split; reflexivity. Qed.

Lemma counters_read_once_witness :
  trace (invoke scenario_A_set 50 scenario_A_pools [7; 3]).2
  = occupancy_queries scenario_A_set
    ++ (op_of 50 <$> allocate_calls
          (trace (invoke scenario_A_set 50 scenario_A_pools [7; 3]).2)).
Proof.
  apply (counters_read_once_then_allocate_only
           scenario_A_set 50 scenario_A_pools [7; 3]).
  simpl. lia.
Defined.

Lemma allocate_only_mounted_pools_witness :
  1%nat ∈ scenario_A_set.*2 ∧ 50 = 50.
Proof.
  apply (allocate_only_mounted_pools scenario_A_set 50 scenario_A_pools
           [7; 3] 1%nat 50 (Some (1%nat, 0))).
  vm_compute. repeat constructor.
Defined.

Lemma engine_drawn_once_per_attempt_witness :
  rng_ (invoke scenario_D_set 5 scenario_D_pools [0; 0; 0; 9]).2
  = engine_after (length (eligible_pools scenario_D_set 5 scenario_D_pools))
      (length (attempted
         (trace (invoke scenario_D_set 5 scenario_D_pools [0; 0; 0; 9]).2)))
      [0; 0; 0; 9].
Proof.
  apply (engine_drawn_once_per_attempt scenario_D_set 5 scenario_D_pools
           [0; 0; 0; 9]).
  - exact Scenarios.replay_in_range.
  - simpl. lia.
Defined.

Lemma sole_eligible_pool_witness :
  (invoke scenario_A_set 50 scenario_A_pools [7; 3]).1
    = Returns (allocate 1%nat 50 scenario_A_pools).1
  ∧ attempted (trace (invoke scenario_A_set 50 scenario_A_pools [7; 3]).2)
    = [1%nat]
  ∧ pools (invoke scenario_A_set 50 scenario_A_pools [7; 3]).2
    = (allocate 1%nat 50 scenario_A_pools).2.
Proof.
  apply (sole_eligible_pool_asked_once scenario_A_set 50 scenario_A_pools
           [7; 3] 1%nat).
  - exact Scenarios.replay_in_range.
  - simpl. lia.
  - reflexivity.
Defined.

Lemma no_handle_after_full_budget_witness :
  ((length (eligible_pools (pool_ops := refusing_allocator)
              scenario_D_set 5 scenario_D_pools) ≤ 10)%nat →
   attempted (trace (invoke (pool_ops := refusing_allocator)
       scenario_D_set 5 scenario_D_pools [0; 0; 0]).2)
     ≡ₚ eligible_pools (pool_ops := refusing_allocator)
          scenario_D_set 5 scenario_D_pools)
  ∧ ((10 ≤ length (eligible_pools (pool_ops := refusing_allocator)
              scenario_D_set 5 scenario_D_pools))%nat →
     length (attempted (trace (invoke (pool_ops := refusing_allocator)
       scenario_D_set 5 scenario_D_pools [0; 0; 0]).2)) = 10%nat).
Proof.
  apply (no_handle_after_full_budget (pool_ops := refusing_allocator)
           scenario_D_set 5 scenario_D_pools [0; 0; 0]).
  - simpl. lia.
  - reflexivity.
Defined.

Lemma handle_when_a_pool_never_refuses_witness :
  ∃ h, (invoke (pool_ops := only_pool 1) scenario_D_set 5 scenario_D_pools
          [0; 0; 0]).1 = Returns (Some h).
Proof.
  apply (handle_when_a_pool_never_refuses (pool_ops := only_pool 1)
           scenario_D_set 5 scenario_D_pools [0; 0; 0] 1%nat).
  - exact Scenarios.replay_in_range.
  - simpl. lia.
  - vm_compute. lia.
  - vm_compute. repeat constructor.
  - intros w'. discriminate.
Defined.

(** The overdrawn pool (capacity 10, 30 in use) is kept for the empty
    request. *)
Lemma filter_keeps_pools_with_room_witness :
  0%nat ∈ [0; 1]%nat ↔
  0%nat ∈ scenario_A_set.*2
  ∧ (0 = 0 ∨ size 0%nat overdrawn_pools + 0 ≤ capacity 0%nat overdrawn_pools).
Proof.
  apply (filter_keeps_pools_with_room scenario_A_set 0
           (mkState overdrawn_pools [7; 3] []) [0; 1]%nat
           (collect_eligible scenario_A_set 0 []
              (mkState (Handle := Handle) overdrawn_pools [7; 3] [])).2 0%nat).
  reflexivity.
Defined.

Lemma removal_moves_last_into_slot_witness :
  let v' := pop_back (if decide (size_add 0 1 ≠ vsize [10; 11; 12]%nat)
                      then swap_with_back [10; 11; 12]%nat 0
                      else [10; 11; 12]%nat) in
  length v' = pred (length [10; 11; 12]%nat)
  ∧ ((0 < length v')%nat →
     v' !! 0%nat = if decide (0%nat = N.to_nat 0)
                   then last [10; 11; 12]%nat
                   else [10; 11; 12]%nat !! 0%nat).
Proof.
  apply (removal_moves_last_into_slot [10; 11; 12]%nat 0 0%nat).
  simpl. lia.
Defined.

Lemma eligible_pool_gets_a_try_witness :
  attempted (trace (invoke scenario_A_set 50 scenario_A_pools [7; 3]).2) ≠ [].
Proof.
  apply (eligible_pool_gets_a_try scenario_A_set 50 scenario_A_pools [7; 3]).
  - exact Scenarios.replay_in_range.
  - simpl. lia.
  - discriminate.
Defined.

(** Scenario D: the handle is pool 1's, handed out after pools 0 and 2
    refused. *)
Lemma returned_handle_is_last_pools_witness :
  ∃ ps p,
    attempted (trace (invoke scenario_D_set 5 scenario_D_pools [0; 0; 0]).2)
      = ps ++ [p]
    ∧ allocate p 5 (pools_after 5 ps scenario_D_pools)
      = (Some (1%nat, 0),
         pools (invoke scenario_D_set 5 scenario_D_pools [0; 0; 0]).2).
Proof.
  apply (returned_handle_is_last_pools scenario_D_set 5 scenario_D_pools
           [0; 0; 0] (1%nat, 0)).
  reflexivity.
Defined.

End CoverageScenarios.
